(** * socketio-auth: a shallow embedding of [lib/socketio-auth.js]

    The module installs two listeners on every namespace of a socket.io
    server: one that takes a freshly connected socket out of the
    namespace's [connected] table, and one that waits for an
    [authentication] message, runs the caller's predicate and fans the
    outcome out over all namespaces.

    JavaScript objects that are shared and mutated (the [auth] property of
    a socket, the [connected] table of a namespace) are modelled by an
    explicit store; effects on the outside world ([emit], [disconnect], the
    [postAuthenticate] hook) are recorded in a log.  Calls to [debug] only
    write to a trace channel and are left out. *)

From Stdlib Require Import ZArith Ascii String.
From stdpp Require Import gmap strings list fin_maps.

Open Scope string_scope.
Open Scope list_scope.

(** ** JavaScript values

    Only the part of the value space the module looks at: truthiness
    (for [config.timeout], [config.postAuthenticate], [err], [success])
    and the [message] property of an error. Numbers are integers, with
    [JNaN] kept apart because it is falsy. [JFun] is an opaque function,
    [JErr m] an object whose [message] property is [m]. *)
Inductive jsval : Type :=
  | JUndefined
  | JNull
  | JBool (b : bool)
  | JNum (n : Z)
  | JNaN
  | JStr (s : string)
  | JFun (name : string)
  | JErr (message : jsval).

(** ToBoolean. *)
Definition truthy (v : jsval) : bool :=
  match v with
  | JUndefined | JNull | JNaN => false
  | JBool b => b
  | JNum n => negb (n =? 0)%Z
  | JStr s => negb (String.eqb s "")
  | JFun _ | JErr _ => true
  end.

(** [a || b] *)
Definition js_or (a b : jsval) : jsval := if truthy a then a else b.

(** [v.message] for a truthy [v]: primitives and functions have no such
    property. *)
Definition get_message (v : jsval) : jsval :=
  match v with
  | JErr m => m
  | _ => JUndefined
  end.

(** ** Strings: [indexOf] and [substring] *)

Module JsString.

(** [s.indexOf(c)] for a one-character pattern, counting from [i];
    [-1] when the character does not occur. *)
Fixpoint indexOf_from (c : ascii) (s : string) (i : Z) : Z :=
  match s with
  | EmptyString => (-1)%Z
  | String a s' => if Ascii.eqb a c then i else indexOf_from c s' (i + 1)%Z
  end.

Definition indexOf (c : ascii) (s : string) : Z := indexOf_from c s 0%Z.

Fixpoint drop (n : nat) (s : string) : string :=
  match n, s with
  | O, _ => s
  | S _, EmptyString => EmptyString
  | S n', String _ s' => drop n' s'
  end.

(** [s.substring(start)]: a negative start counts as 0, a start past the
    end gives the empty string. *)
Definition substring (start : Z) (s : string) : string :=
  drop (Z.to_nat (Z.max 0 start)) s.

(** Does the character occur in the string? *)
Fixpoint occurs (c : ascii) (s : string) : bool :=
  match s with
  | EmptyString => false
  | String a s' => Ascii.eqb a c || occurs c s'
  end.

End JsString.

(** The delimiter between the namespace qualifier and the client id. *)
Definition hash : ascii := "#"%char.

(** [rootSocketId], lines 123-125. *)
Definition rootSocketId (socketId : string) : string :=
  JsString.substring (JsString.indexOf hash socketId + 1) socketId.

(** ** Sockets, namespaces and the shared store *)

(** A socket object. [obj] is the identity of the JavaScript object (two
    sockets are the same object iff they have the same [obj]); [id] is its
    immutable [id] property, a namespace-qualified string such as
    ["/chat#XYZ"]. The mutable [auth] property lives in the store. *)
Record Socket : Type := mkSocket { obj : nat; id : string }.

#[global] Instance Socket_eq_dec : EqDecision Socket.
Proof. solve_decision. Defined.

(** A namespace: [sockets] is every socket that joined it, in order of
    arrival; [connected] is the table socket.io consults when it
    broadcasts, keyed by socket id. *)
Record Namespace : Type := mkNamespace {
  name : string;
  sockets : list Socket;
  connected : gmap string Socket
}.

Definition set_connected (c : gmap string Socket) (nsp : Namespace) : Namespace :=
  {| name := name nsp; sockets := sockets nsp; connected := c |}.

(** Payload of an emitted event: [true] or [{message: message}]. *)
Inductive Payload : Type :=
  | PTrue
  | PMessage (message : jsval).

(** What the module does to the outside world. [Emit s ev p ack]: event
    [ev] with payload [p] sent to socket [s]; [ack] tells whether an
    acknowledgement callback was passed along. *)
Inductive Effect : Type :=
  | Emit (socket : Socket) (event : string) (payload : Payload) (ack : bool)
  | Disconnect (socket : Socket) (reason : option string)
  | PostAuthenticate (hook : jsval) (socket : Socket) (data : jsval).

(** The state the fan-out loops read and write: the [auth] property of
    every socket object (no entry: the property was never assigned, it
    reads [undefined]), the acknowledgement callbacks waiting for the
    client (each one closes over the socket it will disconnect), and the
    log of effects, oldest first. *)
Record Store : Type := mkStore {
  auth : gmap nat bool;
  acks : list Socket;
  log : list Effect
}.

Definition set_auth (socket : Socket) (b : bool) (st : Store) : Store :=
  {| auth := <[obj socket := b]> (auth st); acks := acks st; log := log st |}.

Definition record (e : Effect) (st : Store) : Store :=
  {| auth := auth st; acks := acks st; log := log st ++ [e] |}.

Definition await_ack (socket : Socket) (st : Store) : Store :=
  {| auth := auth st; acks := acks st ++ [socket]; log := log st |}.

(** Truthiness of [socket.auth]. *)
Definition is_auth (st : Store) (socket : Socket) : bool :=
  default false (auth st !! obj socket).

(** The server: its namespaces ([io.nsps], in insertion order), the
    store, the sockets that carry an [authentication] listener, and the
    timers set by [setTimeout] that have not fired yet, each with its
    delay and the socket its callback closes over. *)
Record Server : Type := mkServer {
  nsps : list Namespace;
  store : Store;
  listeners : list Socket;
  timers : list (jsval * Socket)
}.

(** The cleaned configuration. *)
Record Config : Type := mkConfig {
  timeout : jsval;
  authenticate : jsval;
  postAuthenticate : jsval
}.

(** ** The module *)

(** [cleanConfig], lines 62-69. [None] is an omitted (or otherwise falsy)
    [config], replaced by the empty object, whose properties all read
    [undefined]. *)
Definition cleanConfig (config : option Config) : Config :=
  let config := default (mkConfig JUndefined JUndefined JUndefined) config in
  {| timeout := js_or (timeout config) (JNum 1000);
     authenticate := authenticate config;
     postAuthenticate := js_or (postAuthenticate config) (JFun "noop") |}.

(** Modelled from the spec: lodash is not part of the repository.
    [_.findWhere(nsp.sockets, predicate)] is read as the specification
    reads it (a scan of the list that returns the first element the
    predicate accepts, or none), which is what [_.find] does. *)
Definition findWhere {A : Type} (p : A → bool) (l : list A) : option A :=
  List.find p l.

(** The predicate both fan-out functions search with (lines 89-91 and
    108-110). *)
Definition same_root (socketId : string) (socket : Socket) : bool :=
  String.eqb (rootSocketId (id socket)) (rootSocketId socketId).

(** [authConnections], lines 88-102. [hook] and [data] stand for the
    [postAuthenticate] closure of line 51. *)
Definition authConnections (nsp : Namespace) (socketId : string)
    (hook data : jsval) (st : Store) : Namespace * Store :=
  match findWhere (same_root socketId) (sockets nsp) with
  | Some socket =>
      let st := set_auth socket true st in
      let st := record (PostAuthenticate hook socket data) st in
      let st := record (Emit socket "authenticated" PTrue false) st in
      (set_connected (<[socketId := socket]> (connected nsp)) nsp, st)
  | None => (nsp, st)
  end.

(** [disconnectConnections], lines 107-118. The acknowledgement callback
    is stored, not run. *)
Definition disconnectConnections (nsp : Namespace) (socketId : string)
    (message : jsval) (st : Store) : Namespace * Store :=
  match findWhere (same_root socketId) (sockets nsp) with
  | Some socket =>
      let st := record (Emit socket "unauthorized" (PMessage message) true) st in
      (nsp, await_ack socket st)
  | None => (nsp, st)
  end.

(** [_.each(io.nsps, f)] for an [f] that may update the namespace it is
    given and the store. *)
Fixpoint each (f : Namespace → Store → Namespace * Store)
    (l : list Namespace) (st : Store) : list Namespace * Store :=
  match l with
  | [] => ([], st)
  | nsp :: l' =>
      let '(nsp', st') := f nsp st in
      let '(l'', st'') := each f l' st' in
      (nsp' :: l'', st'')
  end.

(** Line 56. *)
Definition failure_message (err : jsval) : jsval :=
  if truthy err then get_message err else JStr "Authentication failure".

(** [authenticateSocket], lines 47-60, from the moment the caller's
    predicate calls back with [(err, success)]. *)
Definition authenticateSocket (config : Config) (socket : Socket)
    (data err success : jsval) (io : Server) : Server :=
  let '(l, st) :=
    if truthy success then
      each (fun nsp => authConnections nsp (id socket) (postAuthenticate config) data)
           (nsps io) (store io)
    else
      each (fun nsp => disconnectConnections nsp (id socket) (failure_message err))
           (nsps io) (store io) in
  {| nsps := l; store := st; listeners := listeners io; timers := timers io |}.

(** [timeout === 'none'] *)
Definition is_none (v : jsval) : bool :=
  match v with
  | JStr s => String.eqb s "none"
  | _ => false
  end.

(** [setupTimeout], lines 35-45: the scheduling part. *)
Definition setupTimeout (timeout : jsval) (socket : Socket) (io : Server) : Server :=
  if is_none timeout then io
  else {| nsps := nsps io; store := store io; listeners := listeners io;
          timers := timers io ++ [(timeout, socket)] |}.

(** The callback handed to [setTimeout], lines 39-44. *)
Definition timeout_callback (socket : Socket) (st : Store) : Store :=
  if is_auth st socket then st
  else record (Disconnect socket (Some "unauthorized")) st.

(** The acknowledgement callback of line 115. *)
Definition ack_callback (socket : Socket) (st : Store) : Store :=
  record (Disconnect socket None) st.

(** [forbidConnections], lines 76-83: the [connect] listener it installs
    on [nsp]. *)
Definition forbidConnections (nsp : Namespace) (socket : Socket) (st : Store) : Namespace :=
  if is_auth st socket then nsp
  else set_connected (delete (id socket) (connected nsp)) nsp.

(** [setupConnectionHandlers], lines 24-33: the [connection] listener it
    installs. *)
Definition setupConnectionHandlers (config : Config) (socket : Socket) (io : Server) : Server :=
  if is_auth (store io) socket then io
  else
    let io := {| nsps := nsps io; store := set_auth socket false (store io);
                 listeners := listeners io ++ [socket]; timers := timers io |} in
    setupTimeout (timeout config) socket io.

(** ** The server as a state machine

    What can happen to a server on which the module is installed. The
    listeners of lines 25-32 and 77-82 are on every namespace (line
    20-21), so a joining socket meets both. *)
Inductive Event : Type :=
  (* a client joins the [i]-th namespace *)
  | Connect (i : nat) (socket : Socket)
  (* an [authentication] message with [data] reached [socket] and the
     caller's predicate completed with [(err, success)] *)
  | Authentication (socket : Socket) (data err success : jsval)
  (* the client acknowledged the [k]-th pending [unauthorized] event *)
  | Acknowledge (k : nat)
  (* the [k]-th pending timer reached its deadline *)
  | TimerFires (k : nat).

(** Modelled from the spec: socket.io is not part of the repository. On a
    join it creates the registration: the socket is added to the
    namespace's list and to its [connected] table under its own id; only
    then are the [connect] and [connection] events emitted, in that
    order. *)
Definition join (socket : Socket) (nsp : Namespace) : Namespace :=
  {| name := name nsp;
     sockets := sockets nsp ++ [socket];
     connected := <[id socket := socket]> (connected nsp) |}.

Definition on_connect (config : Config) (i : nat) (socket : Socket)
    (io : Server) : option Server :=
  nsp ← nsps io !! i;
  let nsp := forbidConnections (join socket nsp) socket (store io) in
  let io := {| nsps := <[i := nsp]> (nsps io); store := store io;
               listeners := listeners io; timers := timers io |} in
  Some (setupConnectionHandlers config socket io).

Definition with_store (st : Store) (io : Server) : Server :=
  {| nsps := nsps io; store := st; listeners := listeners io; timers := timers io |}.

(** One event. [None]: the event cannot happen in this state (no such
    namespace, no listener on that socket, no such callback pending).
    A call of [socket.disconnect] is recorded in the log and nothing more:
    what socket.io then does to the socket (it leaves the namespace) is
    not part of the module and is not modelled, so a state reached after
    a disconnection says what the module did, not what is left of the
    socket. *)
Definition handle (config : Config) (e : Event) (io : Server) : option Server :=
  match e with
  | Connect i socket => on_connect config i socket io
  | Authentication socket data err success =>
      if decide (socket ∈ listeners io)
      then Some (authenticateSocket config socket data err success io)
      else None
  | Acknowledge k =>
      socket ← acks (store io) !! k;
      let st := {| auth := auth (store io); acks := delete k (acks (store io));
                   log := log (store io) |} in
      Some (with_store (ack_callback socket st) io)
  | TimerFires k =>
      t ← timers io !! k;
      Some {| nsps := nsps io; store := timeout_callback t.2 (store io);
              listeners := listeners io; timers := delete k (timers io) |}
  end.

Fixpoint run (config : Config) (es : list Event) (io : Server) : option Server :=
  match es with
  | [] => Some io
  | e :: es' => io' ← handle config e io; run config es' io'
  end.

(** A server with the given namespace names and nothing else. *)
Definition fresh (names : list string) : Server :=
  {| nsps := (λ n, mkNamespace n [] ∅) <$> names;
     store := mkStore ∅ [] [];
     listeners := [];
     timers := [] |}.

(** ** The three-valued status of the specification

    The module keeps one boolean per socket. The status the
    specification speaks of is read off the state: [authenticated] when
    the flag is true; otherwise [rejected] once the socket was sent
    [unauthorized] or was disconnected; otherwise [pending]. *)
Inductive Status : Type := pending | authenticated | rejected.

Definition refuses (socket : Socket) (e : Effect) : bool :=
  match e with
  | Emit s ev _ _ => bool_decide (s = socket) && String.eqb ev "unauthorized"
  | Disconnect s _ => bool_decide (s = socket)
  | PostAuthenticate _ _ _ => false
  end.

Definition status (st : Store) (socket : Socket) : Status :=
  if is_auth st socket then authenticated
  else if existsb (refuses socket) (log st) then rejected
  else pending.

(** The transitions the specification allows. *)
Definition allowed (a b : Status) : Prop :=
  a = b ∨ (a = pending ∧ (b = authenticated ∨ b = rejected)).

(** The transitions the module can make. *)
Definition possible (a b : Status) : Prop :=
  a = b ∨ a = pending ∨ b = authenticated.

#[global] Instance Status_eq_dec : EqDecision Status.
Proof. solve_decision. Defined.

(** The statuses a socket goes through, one per event, for as long as the
    events can happen. *)
Fixpoint statuses (config : Config) (es : list Event) (io : Server)
    (socket : Socket) : list Status :=
  match es with
  | [] => []
  | e :: es' =>
      match handle config e io with
      | Some io' => status (store io') socket :: statuses config es' io' socket
      | None => []
      end
  end.

(** How often the status changes along [a :: l]. *)
Fixpoint changes (a : Status) (l : list Status) : nat :=
  match l with
  | [] => 0
  | b :: l' => (if decide (a = b) then 0 else 1) + changes b l'
  end.

Definition rank (a : Status) : nat :=
  match a with
  | pending => 0
  | rejected => 1
  | authenticated => 2
  end.

(** The order in which the [auth] property moves: unset, [false], [true]. *)
Definition flag_le (a b : option bool) : Prop :=
  a = b ∨ (a = None ∧ b = Some false) ∨ b = Some true.

(** [st'] is a later store than [st]: flags only moved up, the log only
    got longer. *)
Definition grows (st st' : Store) : Prop :=
  (∀ o, flag_le (auth st !! o) (auth st' !! o))
  ∧ ∃ l, log st' = log st ++ l.

(** Disconnections that carry a reason; the acknowledgement callback
    passes none. *)
Definition with_reason (e : Effect) : bool :=
  match e with
  | Disconnect _ (Some _) => true
  | _ => false
  end.

(** [st'] has the same disconnections with a reason as [st]. *)
Definition quiet (st st' : Store) : Prop :=
  List.filter with_reason (log st') = List.filter with_reason (log st).

(** Disconnections, with or without a reason. *)
Definition is_disconnect (e : Effect) : bool :=
  match e with
  | Disconnect _ _ => true
  | _ => false
  end.

(** [st'] has the same disconnections as [st]. *)
Definition closes_nothing (st st' : Store) : Prop :=
  List.filter is_disconnect (log st') = List.filter is_disconnect (log st).

(** The two events whose callbacks call [socket.disconnect]. *)
Definition closing (e : Event) : bool :=
  match e with
  | Acknowledge _ | TimerFires _ => true
  | _ => false
  end.

(** ** Sample data *)

Definition socket_a : Socket := mkSocket 1 "/a#XYZ".
Definition socket_b : Socket := mkSocket 2 "/b#XYZ".
Definition sample_config : Config :=
  cleanConfig (Some (mkConfig JUndefined (JFun "authenticate") JUndefined)).

(** One client in the namespaces [/a] and [/b], not yet authenticated. *)
Definition two_joined : Server :=
  default (fresh [])
    (run sample_config [Connect 0 socket_a; Connect 1 socket_b] (fresh ["/a"; "/b"])).

(** The same two joins on a server configured with [timeout: 'none']. *)
Definition patient_config : Config :=
  mkConfig (JStr "none") (JFun "authenticate") JUndefined.
Definition two_patient : Server :=
  default (fresh [])
    (run (cleanConfig (Some patient_config))
         [Connect 0 socket_a; Connect 1 socket_b] (fresh ["/a"; "/b"])).

(** The same after the predicate turned the client down. *)
Definition turned_down : Server :=
  authenticateSocket sample_config socket_a JNull JNull (JBool false) two_joined.

(** The same after the timer of the first socket fired, with both
    acknowledgements still pending. *)
Definition timed_out_pending : Server :=
  default turned_down (run sample_config [TimerFires 0] turned_down).

(** ** Vocabulary for the properties of the fan-out *)

(** The socket an effect is addressed to. *)
Definition addressee (e : Effect) : Socket :=
  match e with
  | Emit s _ _ _ => s
  | Disconnect s _ => s
  | PostAuthenticate _ s _ => s
  end.

(** The sockets a fan-out for [socketId] finds: per namespace the first
    socket of the same root, in namespace order. *)
Definition found_in (socketId : string) (l : list Namespace) : list Socket :=
  omap (λ nsp, findWhere (same_root socketId) (sockets nsp)) l.

(** What [authConnections] leaves of a namespace. *)
Definition restore (socketId : string) (nsp : Namespace) : Namespace :=
  match findWhere (same_root socketId) (sockets nsp) with
  | Some socket => set_connected (<[socketId := socket]> (connected nsp)) nsp
  | None => nsp
  end.

(** Every entry of the namespace's [connected] table is a socket whose
    [auth] flag is true. *)
Definition admitted (st : Store) (nsp : Namespace) : Prop :=
  ∀ k s, connected nsp !! k = Some s → is_auth st s = true.

(** A second client, and a namespace in which the first client sits
    twice. *)
Definition socket_c : Socket := mkSocket 3 "/a#OTHER".
Definition crowded : Namespace :=
  mkNamespace "/a" [socket_c; socket_a; mkSocket 4 "/a#XYZ"] ∅.

(** * Properties *)

(** ** The Correlation Resolver *)

Section RootId.
Import JsString.

Lemma indexOf_from_absent c s i :
  occurs c s = false → indexOf_from c s i = (-1)%Z.
Proof.
  revert i. induction s as [|a s IH]; intros i; simpl; [done|].
  intros [Ha Hs]%orb_false_elim. rewrite Ha. by apply IH.
Qed.

Lemma indexOf_from_first c pre post i :
  occurs c pre = false →
  indexOf_from c (pre +:+ String c post) i = (i + Z.of_nat (String.length pre))%Z.
Proof.
  revert i. induction pre as [|a pre IH]; intros i; simpl.
  - intros _. rewrite Ascii.eqb_refl. lia.
  - intros [Ha Hs]%orb_false_elim. rewrite Ha, IH by done. lia.
Qed.

Lemma drop_past pre c post :
  drop (S (String.length pre)) (pre +:+ String c post) = post.
Proof. induction pre as [|a pre IH]; simpl; [by destruct post | done]. Qed.

Lemma substring_after pre c post :
  substring (Z.of_nat (String.length pre) + 1) (pre +:+ String c post) = post.
Proof.
  unfold substring.
  replace (Z.to_nat (0 `max` (Z.of_nat (String.length pre) + 1)))
    with (S (String.length pre)) by lia.
  apply drop_past.
Qed.
End RootId.

(** C1 (as amended): [rootSocketId] returns what follows the FIRST [#] of
    its argument, and the whole argument when it contains no [#]. *)
Theorem rootSocketId_after_first (pre post s : string) :
  (JsString.occurs hash pre = false →
     rootSocketId (pre +:+ String hash post) = post)
  ∧ (JsString.occurs hash s = false → rootSocketId s = s).
Proof.
  split; intros H; unfold rootSocketId, JsString.indexOf.
  - rewrite indexOf_from_first by done. apply substring_after.
  - by rewrite indexOf_from_absent.
Qed.

Lemma rootSocketId_after_first_witness :
  rootSocketId ("/a" +:+ String hash "b#c") = "b#c" ∧ rootSocketId "XYZ" = "XYZ".
Proof.
  split.
  - apply (proj1 (rootSocketId_after_first "/a" "b#c" "")). reflexivity.
  - apply (proj2 (rootSocketId_after_first "" "" "XYZ")). reflexivity.
Defined.

(** C1 (as stated) fails: ["/a#b#c"] is ["/a#b"], the delimiter, and ["c"],
    which holds no further delimiter, yet the root computed is ["b#c"]. *)
Lemma rootSocketId_not_after_last :
  ¬ (∀ pre post : string,
       JsString.occurs hash post = false →
       rootSocketId (pre +:+ String hash post) = post).
Proof. intros H. specialize (H "/a#b" "c" eq_refl). discriminate H. Qed.

(** ** Configuration *)

(** C10: a falsy [timeout] is replaced by 1000; so is a [timeout] of 0, and
    so is the [timeout] of an omitted configuration. The timer then set for
    a joining socket carries the delay 1000. *)
Theorem cleanConfig_falsy_timeout (config : Config) :
  truthy (timeout config) = false →
  timeout (cleanConfig (Some config)) = JNum 1000
  ∧ timeout (cleanConfig (Some (mkConfig (JNum 0) (authenticate config)
                                          (postAuthenticate config)))) = JNum 1000
  ∧ timeout (cleanConfig None) = JNum 1000
  ∧ ∀ socket io,
      timers (setupTimeout (timeout (cleanConfig (Some config))) socket io)
      = timers io ++ [(JNum 1000, socket)].
Proof.
  intros H. unfold cleanConfig, js_or. simpl. rewrite H. done.
Qed.

Lemma cleanConfig_falsy_timeout_witness :
  timeout (cleanConfig (Some (mkConfig (JNum 0) (JFun "authenticate") JUndefined)))
  = JNum 1000.
Proof.
  apply (cleanConfig_falsy_timeout (mkConfig (JNum 0) (JFun "authenticate") JUndefined)).
  reflexivity.
Defined.

(** ** The fan-out loops *)

Lemma two_joined_reached :
  run sample_config [Connect 0 socket_a; Connect 1 socket_b] (fresh ["/a"; "/b"])
  = Some two_joined.
Proof. reflexivity. Qed.

Lemma each_lookup f (l : list Namespace) st i nsp :
  l !! i = Some nsp → ∃ st_i, (each f l st).1 !! i = Some (f nsp st_i).1.
Proof.
  revert st i. induction l as [|n l IH]; intros st i; [done|].
  simpl. destruct (f n st) as [n' st'] eqn:Hf.
  destruct (each f l st') as [l'' st''] eqn:He.
  destruct i as [|i]; simpl.
  - intros [= ->]. exists st. by rewrite Hf.
  - intros Hi. destruct (IH st' i Hi) as [st_i H]. exists st_i.
    by rewrite He in H.
Qed.

(** The failure loop in closed form: the namespaces are left as they
    were, and every namespace with a match contributes one event and one
    pending acknowledgement, in namespace order. *)
Lemma each_disconnect socketId message (l : list Namespace) st :
  let found := omap (λ nsp, findWhere (same_root socketId) (sockets nsp)) l in
  each (λ nsp, disconnectConnections nsp socketId message) l st
  = (l, {| auth := auth st;
           acks := acks st ++ found;
           log := log st ++ ((λ s, Emit s "unauthorized" (PMessage message) true) <$> found) |}).
Proof.
  revert st. induction l as [|n l IH]; intros st; simpl.
  - destruct st; simpl. by rewrite !app_nil_r.
  - unfold disconnectConnections at 1.
    destruct (findWhere (same_root socketId) (sockets n)) as [s|]; simpl.
    + rewrite IH. simpl. by rewrite <- !app_assoc.
    + by rewrite IH.
Qed.

Lemma authConnections_unmatched nsp socketId hook data st :
  findWhere (same_root socketId) (sockets nsp) = None →
  authConnections nsp socketId hook data st = (nsp, st).
Proof. unfold authConnections. by intros ->. Qed.

Lemma disconnectConnections_unmatched nsp socketId message st :
  findWhere (same_root socketId) (sockets nsp) = None →
  disconnectConnections nsp socketId message st = (nsp, st).
Proof. unfold disconnectConnections. by intros ->. Qed.

(** C9: a namespace without a socket of the same root comes out of either
    fan-out exactly as it went in, [connected] table included; on such a
    namespace both [authConnections] and [disconnectConnections] return
    without touching the namespace or the store. *)
Theorem fanout_skips_unmatched config socket data err success io i nsp :
  nsps io !! i = Some nsp →
  findWhere (same_root (id socket)) (sockets nsp) = None →
  nsps (authenticateSocket config socket data err success io) !! i = Some nsp
  ∧ (∀ hook st, authConnections nsp (id socket) hook data st = (nsp, st))
  ∧ (∀ message st, disconnectConnections nsp (id socket) message st = (nsp, st)).
Proof.
  intros Hi Hnone. split; [|split].
  - unfold authenticateSocket. destruct (truthy success).
    + destruct (each_lookup
        (λ nsp, authConnections nsp (id socket) (postAuthenticate config) data)
        (nsps io) (store io) i nsp Hi) as [st_i H].
      rewrite authConnections_unmatched in H by done.
      by destruct (each _ _ _).
    + rewrite each_disconnect. done.
  - intros. by apply authConnections_unmatched.
  - intros. by apply disconnectConnections_unmatched.
Qed.

Lemma fanout_skips_unmatched_witness :
  nsps (authenticateSocket sample_config (mkSocket 3 "/c#OTHER")
          JNull JNull (JBool true) two_joined) !! 1%nat
  = Some (mkNamespace "/b" [socket_b] ∅).
Proof.
  apply (fanout_skips_unmatched sample_config (mkSocket 3 "/c#OTHER")
           JNull JNull (JBool true) two_joined 1 (mkNamespace "/b" [socket_b] ∅));
    reflexivity.
Defined.

(** C3 (as amended): the branch is chosen by [success] alone. With a falsy
    [success] the outcome is that of [success = false], whatever [err] is:
    the [unauthorized] fan-out runs (one event and one pending
    acknowledgement, which will disconnect, per matching namespace), no
    [auth] flag and no [connected] table changes. With a truthy [success]
    the error is not looked at. *)
Theorem error_follows_success_flag config socket data err success io :
  (truthy success = false →
     let io' := authenticateSocket config socket data err success io in
     io' = authenticateSocket config socket data err (JBool false) io
     ∧ auth (store io') = auth (store io)
     ∧ nsps io' = nsps io
     ∧ log (store io')
       = (log (store io)
          ++ ((λ s, Emit s "unauthorized" (PMessage (failure_message err)) true)
              <$> omap (λ nsp, findWhere (same_root (id socket)) (sockets nsp))
                       (nsps io)))%list
     ∧ acks (store io')
       = (acks (store io)
          ++ omap (λ nsp, findWhere (same_root (id socket)) (sockets nsp))
                  (nsps io))%list)
  ∧ (truthy success = true →
     authenticateSocket config socket data err success io
     = authenticateSocket config socket data JUndefined (JBool true) io).
Proof.
  split; intros Hs; unfold authenticateSocket; rewrite Hs; simpl; [|done].
  rewrite each_disconnect. done.
Qed.

Lemma error_follows_success_flag_witness :
  auth (store (authenticateSocket sample_config socket_a JNull
                 (JErr (JStr "bad token")) (JNum 0) two_joined))
  = auth (store two_joined)
  ∧ authenticateSocket sample_config socket_a JNull
      (JErr (JStr "bad token")) (JNum 1) two_joined
    = authenticateSocket sample_config socket_a JNull
        JUndefined (JBool true) two_joined.
Proof.
  split.
  - destruct (proj1 (error_follows_success_flag sample_config socket_a JNull
                       (JErr (JStr "bad token")) (JNum 0) two_joined) eq_refl)
      as (_ & H & _).
    exact H.
  - exact (proj2 (error_follows_success_flag sample_config socket_a JNull
                    (JErr (JStr "bad token")) (JNum 1) two_joined) eq_refl).
Defined.

(** C3 (as stated) fails: an error reported together with [success = true]
    is not handled as a failure; the socket ends up authenticated. *)
Lemma error_with_success_authenticates :
  ¬ (∀ config socket data err success io,
       truthy err = true →
       authenticateSocket config socket data err success io
       = authenticateSocket config socket data err (JBool false) io
       ∧ is_auth (store (authenticateSocket config socket data err success io)) socket
         = is_auth (store io) socket).
Proof.
  intros H.
  destruct (H sample_config socket_a JNull (JErr (JStr "bad token")) (JBool true)
              two_joined eq_refl) as [_ H2].
  vm_compute in H2. discriminate H2.
Qed.

(** ** The Admission Filter *)

(** C4: for a socket whose [auth] is not true, the [connect] listener
    leaves the namespace without an entry under the socket's id and with
    its socket list untouched, and does nothing at all when there was no
    such entry. After the whole join (socket.io's registration and both
    listeners) the socket is in the namespace's list and not in its
    [connected] table. *)
Theorem forbidConnections_excludes nsp socket st :
  is_auth st socket = false →
  connected (forbidConnections nsp socket st) !! id socket = None
  ∧ sockets (forbidConnections nsp socket st) = sockets nsp
  ∧ (connected nsp !! id socket = None → forbidConnections nsp socket st = nsp)
  ∧ ∀ config i io io',
      store io = st →
      on_connect config i socket io = Some io' →
      ∃ n, nsps io' !! i = Some n
           ∧ connected n !! id socket = None
           ∧ socket ∈ sockets n.
Proof.
  intros Ha. unfold forbidConnections. rewrite Ha. simpl.
  split; [apply lookup_delete_eq|]. split; [done|]. split.
  - intros Hn. destruct nsp as [n l c]; simpl in *. unfold set_connected; simpl.
    f_equal. by apply delete_id.
  - intros config i io io' <- Hc. unfold on_connect in Hc.
    destruct (nsps io !! i) as [n0|] eqn:Hi; simpl in Hc; [|done].
    injection Hc as <-.
    unfold setupConnectionHandlers, forbidConnections. simpl. rewrite Ha.
    unfold setupTimeout. simpl.
    exists (set_connected (delete (id socket) (connected (join socket n0))) (join socket n0)).
    split.
    + destruct (is_none (timeout config)); simpl;
        apply list_lookup_insert_eq; by eapply lookup_lt_Some.
    + simpl. split; [apply lookup_delete_eq|]. set_solver.
Qed.

Lemma forbidConnections_excludes_witness :
  connected (forbidConnections (mkNamespace "/a" [socket_a] {[ "/a#XYZ" := socket_a ]})
               socket_a (mkStore ∅ [] [])) !! "/a#XYZ" = None.
Proof.
  apply (forbidConnections_excludes
           (mkNamespace "/a" [socket_a] {[ "/a#XYZ" := socket_a ]})
           socket_a (mkStore ∅ [] [])).
  reflexivity.
Defined.

(** ** Re-admission after success *)

Lemma authConnections_matched nsp socketId hook data st socket :
  findWhere (same_root socketId) (sockets nsp) = Some socket →
  connected (authConnections nsp socketId hook data st).1
  = <[socketId := socket]> (connected nsp).
Proof. unfold authConnections. by intros ->. Qed.

(** C2, evaluated: a client sits in [/a] as ["/a#XYZ"] and in [/b] as
    ["/b#XYZ"] and authenticates over its [/a] socket. In [/b] the socket
    found is ["/b#XYZ"], and it is entered into the [connected] table of
    [/b] under ["/a#XYZ"], the id of the socket that sent the message;
    the table has no entry under ["/b#XYZ"]. *)
Theorem reinsert_uses_sender_id :
  let io' := authenticateSocket sample_config socket_a JNull JNull
               (JBool true) two_joined in
  ∃ nsp_b,
    nsps io' !! 1%nat = Some nsp_b
    ∧ name nsp_b = "/b"
    ∧ findWhere (same_root (id socket_a)) (sockets nsp_b) = Some socket_b
    ∧ connected nsp_b !! id socket_b = None
    ∧ connected nsp_b !! id socket_a = Some socket_b.
Proof.
  eexists. split; [reflexivity|]. repeat split; vm_compute; reflexivity.
Qed.

(** ** Monotonicity of the store *)

Lemma flag_le_trans a b c : flag_le a b → flag_le b c → flag_le a c.
Proof.
  unfold flag_le. destruct a as [[]|], b as [[]|], c as [[]|]; intuition congruence.
Qed.

Lemma grows_refl st : grows st st.
Proof. split; [by left | exists []; by rewrite app_nil_r]. Qed.

Lemma grows_trans a b c : grows a b → grows b c → grows a c.
Proof.
  intros [F1 [l1 L1]] [F2 [l2 L2]]. split.
  - intros o. eapply flag_le_trans; eauto.
  - exists (l1 ++ l2). by rewrite L2, L1, app_assoc.
Qed.

Lemma each_preserves (R : Store → Store → Prop) f :
  (∀ st, R st st) → (∀ a b c, R a b → R b c → R a c) →
  (∀ nsp st, R st (f nsp st).2) →
  ∀ l st, R st (each f l st).2.
Proof.
  intros Hr Ht Hf l. induction l as [|n l IH]; intros st; simpl; [apply Hr|].
  pose proof (Hf n st) as H1. destruct (f n st) as [n' st'].
  pose proof (IH st') as H2. destruct (each f l st') as [l'' st''].
  simpl in *. by eapply Ht.
Qed.

Lemma authenticateSocket_preserves (R : Store → Store → Prop)
    config socket data err success io :
  (∀ st, R st st) → (∀ a b c, R a b → R b c → R a c) →
  (∀ nsp socketId hook data st, R st (authConnections nsp socketId hook data st).2) →
  (∀ nsp socketId message st, R st (disconnectConnections nsp socketId message st).2) →
  R (store io) (store (authenticateSocket config socket data err success io)).
Proof.
  intros Hr Ht Ha Hd. unfold authenticateSocket.
  destruct (truthy success).
  - pose proof (each_preserves R
      (λ nsp, authConnections nsp (id socket) (postAuthenticate config) data)
      Hr Ht (λ nsp st, Ha nsp _ _ _ st) (nsps io) (store io)) as H.
    by destruct (each _ _ _).
  - pose proof (each_preserves R
      (λ nsp, disconnectConnections nsp (id socket) (failure_message err))
      Hr Ht (λ nsp st, Hd nsp _ _ st) (nsps io) (store io)) as H.
    by destruct (each _ _ _).
Qed.

Lemma authConnections_grows nsp socketId hook data st :
  grows st (authConnections nsp socketId hook data st).2.
Proof.
  unfold authConnections.
  destruct (findWhere _ _) as [s|]; simpl; [|apply grows_refl].
  split; simpl.
  - intros o. destruct (decide (o = obj s)) as [->|Hne].
    + rewrite lookup_insert_eq. right; by right.
    + rewrite lookup_insert_ne by done. by left.
  - eexists. by rewrite <- app_assoc.
Qed.

Lemma disconnectConnections_grows nsp socketId message st :
  grows st (disconnectConnections nsp socketId message st).2.
Proof.
  unfold disconnectConnections.
  destruct (findWhere _ _) as [s|]; simpl; [|apply grows_refl].
  split; simpl; [by left | by eexists].
Qed.

Lemma setupConnectionHandlers_grows config socket io :
  grows (store io) (store (setupConnectionHandlers config socket io)).
Proof.
  unfold setupConnectionHandlers.
  destruct (is_auth (store io) socket) eqn:Ha; [apply grows_refl|].
  unfold setupTimeout. simpl.
  assert (grows (store io) (set_auth socket false (store io))) as H.
  { split; simpl; [|exists []; by rewrite app_nil_r].
    intros o. destruct (decide (o = obj socket)) as [->|Hne].
    - rewrite lookup_insert_eq. unfold is_auth in Ha.
      destruct (auth (store io) !! obj socket) as [[]|]; simpl in Ha;
        [done | by left | right; by left].
    - rewrite lookup_insert_ne by done. by left. }
  by destruct (is_none (timeout config)).
Qed.

Lemma handle_grows config e io io' :
  handle config e io = Some io' → grows (store io) (store io').
Proof.
  destruct e as [i s|s data err success|k|k]; simpl.
  - unfold on_connect. destruct (nsps io !! i); simpl; [|done].
    intros [= <-]. apply (setupConnectionHandlers_grows config s (mkServer _ _ _ _)).
  - destruct (decide _); [|done]. intros [= <-].
    apply authenticateSocket_preserves;
      [ exact grows_refl | exact grows_trans
      | intros; apply authConnections_grows
      | intros; apply disconnectConnections_grows ].
  - destruct (acks (store io) !! k); simpl; [|done]. intros [= <-].
    split; simpl; [by left | by eexists].
  - destruct (timers io !! k) as [t|]; simpl; [|done]. intros [= <-]. simpl.
    unfold timeout_callback. destruct (is_auth _ _); [apply grows_refl|].
    split; simpl; [by left | by eexists].
Qed.

Lemma run_grows config es io io' :
  run config es io = Some io' → grows (store io) (store io').
Proof.
  revert io. induction es as [|e es IH]; intros io; simpl.
  - intros [= <-]. apply grows_refl.
  - destruct (handle config e io) as [io1|] eqn:He; simpl; [|done].
    intros Hr. eapply grows_trans; [by eapply handle_grows | by apply IH].
Qed.

(** ** The authentication status *)

Lemma grows_possible st st' socket :
  grows st st' → possible (status st socket) (status st' socket).
Proof.
  intros [Hf [l Hl]]. specialize (Hf (obj socket)).
  unfold possible, status, is_auth. rewrite Hl, existsb_app.
  destruct (auth st' !! obj socket) as [[]|], (auth st !! obj socket) as [[]|];
    simpl; destruct Hf as [Hf|[[Hf Hf']|Hf]]; simplify_eq;
    destruct (existsb (refuses socket) (log st)); simpl; auto.
Qed.

Lemma grows_authenticated st st' socket :
  grows st st' →
  status st socket = authenticated → status st' socket = authenticated.
Proof.
  intros [Hf _]. specialize (Hf (obj socket)). unfold status, is_auth.
  destruct (auth st !! obj socket) as [[]|] eqn:Ha; simpl;
    try (destruct (existsb _ _); discriminate).
  intros _. destruct Hf as [Hf|[[Hf Hf']|Hf]]; simplify_eq; [by rewrite <- Hf | by rewrite Hf].
Qed.

Lemma possible_rank a b : possible a b → a ≠ b → rank a < rank b.
Proof. destruct a, b; unfold possible; simpl; intros [?|[?|?]] ?; done || lia. Qed.

Lemma changes_bounded config es io socket :
  (changes (status (store io) socket) (statuses config es io socket)
   + rank (status (store io) socket) ≤ 2)%nat.
Proof.
  revert io. induction es as [|e es IH]; intros io; simpl.
  - destruct (status (store io) socket); simpl; lia.
  - destruct (handle config e io) as [io1|] eqn:He; simpl.
    + pose proof (grows_possible _ _ socket (handle_grows _ _ _ _ He)) as Hp.
      specialize (IH io1). destruct (decide _) as [Heq|Hne].
      * rewrite Heq. simpl. lia.
      * apply possible_rank in Hp; [|done]. lia.
    + destruct (status (store io) socket); simpl; lia.
Qed.

(** C8 (as amended): over any sequence of events the [auth] flag of a
    socket only moves up the order unset, [false], [true]; the status only
    changes from [pending] or to [authenticated] (so [pending] to
    [rejected], [pending] to [authenticated] and [rejected] to
    [authenticated]), [authenticated] is never left, and the status
    changes at most twice. *)
Theorem status_transitions config es io io' socket :
  run config es io = Some io' →
  possible (status (store io) socket) (status (store io') socket)
  ∧ (∀ o, flag_le (auth (store io) !! o) (auth (store io') !! o))
  ∧ (status (store io) socket = authenticated →
     status (store io') socket = authenticated)
  ∧ (changes (status (store io) socket) (statuses config es io socket) ≤ 2)%nat.
Proof.
  intros Hgrow%run_grows. split; [by apply grows_possible|]. split; [|split].
  - by destruct Hgrow.
  - by apply grows_authenticated.
  - pose proof (changes_bounded config es io socket). lia.
Qed.

Lemma status_transitions_witness :
  possible (status (store (fresh ["/a"; "/b"])) socket_a)
           (status (store turned_down) socket_a).
Proof.
  apply (status_transitions sample_config
           [Connect 0 socket_a; Connect 1 socket_b;
            Authentication socket_a JNull JNull (JBool false)]
           (fresh ["/a"; "/b"]) turned_down socket_a).
  reflexivity.
Defined.

(** C8 (as stated) fails: a socket that was turned down and has not been
    disconnected yet becomes authenticated when a second [authentication]
    message succeeds, a transition out of [rejected]. *)
Lemma rejected_then_authenticated :
  ¬ (∀ config es e io io' socket,
       run config es (fresh ["/a"; "/b"]) = Some io →
       handle config e io = Some io' →
       allowed (status (store io) socket) (status (store io') socket)).
Proof.
  intros H.
  specialize (H sample_config
    [Connect 0 socket_a; Connect 1 socket_b;
     Authentication socket_a JNull JNull (JBool false)]
    (Authentication socket_a JNull JNull (JBool true))
    turned_down
    (authenticateSocket sample_config socket_a JNull JNull (JBool true) turned_down)
    socket_a eq_refl eq_refl).
  vm_compute in H. destruct H as [H|[H _]]; discriminate H.
Qed.

(** ** The Timer Guard *)

(** C6 (as amended): the timer callback looks at the [auth] flag only. A
    socket that is still pending, or that was turned down (which the flag
    does not record), is disconnected with reason ["unauthorized"]; for an
    authenticated socket the callback does nothing. A timer fires once:
    the event runs this callback and drops the timer. *)
Theorem timeout_callback_by_flag socket st :
  (status st socket = pending ∨ status st socket = rejected →
     timeout_callback socket st
     = record (Disconnect socket (Some "unauthorized")) st)
  ∧ (status st socket = authenticated → timeout_callback socket st = st)
  ∧ ∀ config k delay io,
      store io = st →
      timers io !! k = Some (delay, socket) →
      ∃ io', handle config (TimerFires k) io = Some io'
             ∧ store io' = timeout_callback socket st
             ∧ timers io' = delete k (timers io).
Proof.
  unfold status, timeout_callback. split; [|split].
  - destruct (is_auth st socket); [|done]. intros [H|H]; discriminate H.
  - destruct (is_auth st socket); [done|].
    destruct (existsb _ _); discriminate.
  - intros config k delay io <- Hk. simpl. rewrite Hk. simpl. eauto.
Qed.

Lemma timeout_callback_by_flag_witness :
  timeout_callback socket_a (store two_joined)
  = record (Disconnect socket_a (Some "unauthorized")) (store two_joined)
  ∧ timeout_callback socket_a
      (store (authenticateSocket sample_config socket_a JNull JNull
                (JBool true) two_joined))
    = store (authenticateSocket sample_config socket_a JNull JNull
               (JBool true) two_joined).
Proof.
  split.
  - apply (proj1 (timeout_callback_by_flag socket_a (store two_joined))).
    left. reflexivity.
  - apply (proj1 (proj2 (timeout_callback_by_flag socket_a _))).
    reflexivity.
Defined.

(** C6 (as stated) fails: for a socket that was turned down, the status
    has left [pending], and the timer callback still disconnects it. *)
Lemma timeout_after_rejection :
  ¬ (∀ socket st,
       (status st socket = pending →
          timeout_callback socket st
          = record (Disconnect socket (Some "unauthorized")) st)
       ∧ (status st socket ≠ pending → timeout_callback socket st = st)).
Proof.
  intros H. destruct (H socket_a (store turned_down)) as [_ H2].
  assert (status (store turned_down) socket_a = rejected) as Hr by reflexivity.
  rewrite Hr in H2. specialize (H2 ltac:(discriminate)).
  apply (f_equal (λ st, length (log st))) in H2.
  vm_compute in H2. discriminate H2.
Qed.

Lemma authConnections_quiet nsp socketId hook data st :
  quiet st (authConnections nsp socketId hook data st).2.
Proof.
  unfold quiet, authConnections. destruct (findWhere _ _); simpl; [|done].
  rewrite !List.filter_app. simpl. by rewrite !app_nil_r.
Qed.

Lemma disconnectConnections_quiet nsp socketId message st :
  quiet st (disconnectConnections nsp socketId message st).2.
Proof.
  unfold quiet, disconnectConnections. destruct (findWhere _ _); simpl; [|done].
  rewrite !List.filter_app. simpl. by rewrite !app_nil_r.
Qed.

Lemma handle_without_timers config e io io' :
  is_none (timeout config) = true →
  timers io = [] →
  handle config e io = Some io' →
  timers io' = [] ∧ (∀ k, e ≠ TimerFires k) ∧ quiet (store io) (store io').
Proof.
  intros Hn Ht. destruct e as [i s|s data err success|k|k]; simpl.
  - unfold on_connect. destruct (nsps io !! i); simpl; [|done].
    intros [= <-]. unfold setupConnectionHandlers, setupTimeout. simpl.
    rewrite Hn. by destruct (is_auth (store io) s).
  - destruct (decide _); [|done]. intros [= <-]. split; [|split; [done|]].
    + unfold authenticateSocket.
      by destruct (if truthy success then _ else _).
    + apply authenticateSocket_preserves;
        [ done | unfold quiet; congruence
        | intros; apply authConnections_quiet
        | intros; apply disconnectConnections_quiet ].
  - destruct (acks (store io) !! k); simpl; [|done]. intros [= <-].
    split; [done|]. split; [done|]. unfold quiet. simpl.
    rewrite List.filter_app. simpl. by rewrite app_nil_r.
  - by rewrite Ht.
Qed.

(** C7: under a configuration whose [timeout] is ['none'] (cleaning leaves
    that value alone) [setupTimeout] changes nothing; and on a server
    without timers, whatever events happen and however many, no timer is
    ever pending, no timer fires, and no socket is disconnected with a
    reason (the reason the Timer Guard gives is ["unauthorized"]). *)
Theorem timeout_none_never_fires config es io io' :
  timeout config = JStr "none" →
  timers io = [] →
  run (cleanConfig (Some config)) es io = Some io' →
  timeout (cleanConfig (Some config)) = JStr "none"
  ∧ (∀ socket io0,
       setupTimeout (timeout (cleanConfig (Some config))) socket io0 = io0)
  ∧ timers io' = []
  ∧ (∀ k, TimerFires k ∉ es)
  ∧ ∀ socket reason,
      Disconnect socket (Some reason) ∈ log (store io') →
      Disconnect socket (Some reason) ∈ log (store io).
Proof.
  intros Hc Ht0 Hr0.
  assert (timeout (cleanConfig (Some config)) = JStr "none") as Hn.
  { unfold cleanConfig, js_or. simpl. by rewrite Hc. }
  split; [done|]. split; [intros; unfold setupTimeout; by rewrite Hn|].
  assert (is_none (timeout (cleanConfig (Some config))) = true) as Hi
    by by rewrite Hn.
  clear Hn Hc. revert io Ht0 Hr0. induction es as [|e es IH]; intros io Ht; simpl.
  - intros [= <-]. split; [done|]. split; [|done]. intros k. apply not_elem_of_nil.
  - destruct (handle _ e io) as [io1|] eqn:He; simpl; [|done]. intros Hr.
    destruct (handle_without_timers _ _ _ _ Hi Ht He) as (Ht1 & Hne & Hq).
    destruct (IH io1 Ht1 Hr) as (Ht' & Hes & Hlog).
    split; [done|]. split.
    + intros k [Heq|Hin]%elem_of_cons; [by apply (Hne k) | by apply (Hes k)].
    + intros s r Hin%Hlog. rewrite !list_elem_of_In in *.
      assert (In (Disconnect s (Some r)) (List.filter with_reason (log (store io1))))
        as H by by apply List.filter_In.
      rewrite Hq in H. by apply List.filter_In in H as [? _].
Qed.

Lemma timeout_none_never_fires_witness :
  timers two_joined = [(JNum 1000, socket_a); (JNum 1000, socket_b)]
  ∧ timers two_patient = [].
Proof.
  split; [reflexivity|].
  destruct (timeout_none_never_fires patient_config
              [Connect 0 socket_a; Connect 1 socket_b] (fresh ["/a"; "/b"])
              two_patient eq_refl eq_refl eq_refl) as (_ & _ & H & _).
  exact H.
Defined.

(** ** Who closes a connection *)

Lemma authConnections_closes_nothing nsp socketId hook data st :
  closes_nothing st (authConnections nsp socketId hook data st).2.
Proof.
  unfold closes_nothing, authConnections. destruct (findWhere _ _); simpl; [|done].
  rewrite !List.filter_app. simpl. by rewrite !app_nil_r.
Qed.

Lemma disconnectConnections_closes_nothing nsp socketId message st :
  closes_nothing st (disconnectConnections nsp socketId message st).2.
Proof.
  unfold closes_nothing, disconnectConnections.
  destruct (findWhere _ _); simpl; [|done].
  rewrite !List.filter_app. simpl. by rewrite !app_nil_r.
Qed.

Lemma handle_closes_nothing config e io io' :
  closing e = false →
  handle config e io = Some io' →
  closes_nothing (store io) (store io').
Proof.
  destruct e as [i s|s data err success|k|k]; simpl; intros Hc; [| |done..].
  - unfold on_connect. destruct (nsps io !! i); simpl; [|done].
    intros [= <-]. unfold setupConnectionHandlers, setupTimeout. simpl.
    destruct (is_auth (store io) s); [done|]. by destruct (is_none _).
  - destruct (decide _); [|done]. intros [= <-].
    apply authenticateSocket_preserves;
      [ done | unfold closes_nothing; congruence
      | intros; apply authConnections_closes_nothing
      | intros; apply disconnectConnections_closes_nothing ].
Qed.

Lemma run_closes_nothing config es io io' :
  Forall (λ e, closing e = false) es →
  run config es io = Some io' →
  closes_nothing (store io) (store io').
Proof.
  revert io. induction es as [|e es IH]; intros io Hes; simpl.
  - by intros [= <-].
  - inversion Hes as [|? ? He Hes']; subst.
    destruct (handle config e io) as [io1|] eqn:Hh; simpl; [|done].
    intros Hr. unfold closes_nothing.
    rewrite (IH io1 Hes' Hr). by eapply handle_closes_nothing.
Qed.

Lemma closes_nothing_elem st st' s r :
  closes_nothing st st' →
  Disconnect s r ∈ log st' → Disconnect s r ∈ log st.
Proof.
  unfold closes_nothing. intros Hq Hin. rewrite list_elem_of_In in *.
  assert (In (Disconnect s r) (List.filter is_disconnect (log st'))) as H
    by by apply List.filter_In.
  rewrite Hq in H. by apply List.filter_In in H as [? _].
Qed.

(** C5 (as amended): when [success] is falsy the namespaces are left as
    they were, and what is sent is, for each namespace that has a socket of
    the same root (the first such socket, in namespace order), one
    [unauthorized] event whose payload carries [err.message] if [err] is
    truthy and ["Authentication failure"] otherwise. The failure path
    closes a connection on acknowledgement only: the fan-out disconnects
    nothing, each of these sockets gets a pending acknowledgement whose
    arrival disconnects it, and as long as nothing is acknowledged and no
    timer fires, whatever else happens, no disconnection is added. (A
    timer may fire first and disconnect with reason ["unauthorized"].) *)
Theorem failure_fanout config socket data err success io :
  truthy success = false →
  let io' := authenticateSocket config socket data err success io in
  let found := omap (λ nsp, findWhere (same_root (id socket)) (sockets nsp)) (nsps io) in
  let message := if truthy err then get_message err else JStr "Authentication failure" in
  nsps io' = nsps io
  ∧ log (store io')
    = (log (store io) ++ ((λ s, Emit s "unauthorized" (PMessage message) true) <$> found))%list
  ∧ acks (store io') = (acks (store io) ++ found)%list
  ∧ (∀ k s, acks (store io') !! k = Some s →
      ∃ io'', handle config (Acknowledge k) io' = Some io''
              ∧ log (store io'') = (log (store io') ++ [Disconnect s None])%list)
  ∧ ∀ es io'',
      Forall (λ e, closing e = false) es →
      run config es io' = Some io'' →
      ∀ s r, Disconnect s r ∈ log (store io'') → Disconnect s r ∈ log (store io).
Proof.
  intros Hs. simpl. split; [|split; [|split; [|split]]].
  - unfold authenticateSocket. by rewrite Hs, each_disconnect.
  - unfold authenticateSocket. by rewrite Hs, each_disconnect.
  - unfold authenticateSocket. by rewrite Hs, each_disconnect.
  - unfold authenticateSocket. rewrite Hs, each_disconnect. simpl.
    intros k s Hk. rewrite Hk. simpl. eauto.
  - intros es io'' Hes Hrun s r Hin.
    pose proof (run_closes_nothing _ _ _ _ Hes Hrun) as H1.
    apply (closes_nothing_elem _ _ _ _ H1) in Hin.
    eapply closes_nothing_elem; [|exact Hin].
    apply authenticateSocket_preserves;
      [ done | unfold closes_nothing; congruence
      | intros; apply authConnections_closes_nothing
      | intros; apply disconnectConnections_closes_nothing ].
Qed.

Lemma failure_fanout_witness :
  log (store (authenticateSocket sample_config socket_a JNull
                (JErr (JStr "bad token")) (JBool false) two_joined))
  = [Emit socket_a "unauthorized" (PMessage (JStr "bad token")) true;
     Emit socket_b "unauthorized" (PMessage (JStr "bad token")) true].
Proof.
  destruct (failure_fanout sample_config socket_a JNull
              (JErr (JStr "bad token")) (JBool false) two_joined eq_refl)
    as (_ & H & _).
  exact H.
Defined.

(** C5 (as stated) fails: after a failure the timer of a socket may fire
    while the acknowledgement of its [unauthorized] event is still
    pending, and the socket is then disconnected before any
    acknowledgement. *)
Lemma closed_before_acknowledgement :
  ¬ (∀ config socket data err success io es io' s,
       truthy success = false →
       acks (store io) = [] →
       (∀ r, Disconnect s r ∉ log (store io)) →
       run config es (authenticateSocket config socket data err success io)
       = Some io' →
       s ∈ acks (store io') →
       ∀ r, Disconnect s r ∉ log (store io')).
Proof.
  intros H.
  apply (H sample_config socket_a JNull JNull (JBool false) two_joined
           [TimerFires 0] timed_out_pending socket_a eq_refl eq_refl
           ltac:(intros r Hr; by apply elem_of_nil in Hr) eq_refl
           ltac:(apply list_elem_of_here) (Some "unauthorized")).
  vm_compute. do 2 apply list_elem_of_further. apply list_elem_of_here.
Qed.

(** * Further properties of the module *)

(** ** Correlation of qualified ids *)

Lemma rootSocketId_qualified pre post :
  JsString.occurs hash pre = false →
  rootSocketId (pre +:+ String hash post) = post.
Proof.
  intros H. unfold rootSocketId, JsString.indexOf.
  rewrite indexOf_from_first by done. apply substring_after.
Qed.

Lemma rootSocketId_bare s :
  JsString.occurs hash s = false → rootSocketId s = s.
Proof.
  intros H. unfold rootSocketId, JsString.indexOf.
  by rewrite indexOf_from_absent.
Qed.

(** X1: two ids qualified by namespace names without [#] are taken for
    the same client exactly when what follows the [#] is equal; and an
    unqualified id without [#] is taken for the same client as any
    qualified id that ends in it. *)
Theorem same_root_qualified (n1 n2 x y : string) (o : nat) :
  JsString.occurs hash n1 = false →
  JsString.occurs hash n2 = false →
  (same_root (n1 +:+ String hash x) (mkSocket o (n2 +:+ String hash y)) = true
   ↔ x = y)
  ∧ (JsString.occurs hash x = false →
     same_root x (mkSocket o (n2 +:+ String hash x)) = true).
Proof.
  intros H1 H2. unfold same_root. simpl.
  rewrite !rootSocketId_qualified by done. split.
  - rewrite String.eqb_eq. split; congruence.
  - intros Hx. rewrite rootSocketId_bare by done. apply String.eqb_refl.
Qed.

Lemma same_root_qualified_witness :
  same_root "/a#XYZ" (mkSocket 2 "/b#XYZ") = true
  ∧ same_root "XYZ" (mkSocket 2 "/b#XYZ") = true.
Proof.
  split.
  - apply (proj1 (same_root_qualified "/a" "/b" "XYZ" "XYZ" 2 eq_refl eq_refl)).
    reflexivity.
  - apply (proj2 (same_root_qualified "/a" "/b" "XYZ" "XYZ" 2 eq_refl eq_refl)).
    reflexivity.
Defined.

(** ** What cleaning guarantees *)

(** X2: a cleaned configuration always has a truthy [timeout] and a
    truthy [postAuthenticate]; truthy values given by the caller are kept;
    [authenticate] is passed through unchecked (it is [undefined] when the
    configuration is omitted); and cleaning a cleaned configuration
    changes nothing. *)
Theorem cleanConfig_cleaned (config : option Config) (c : Config) :
  truthy (timeout (cleanConfig config)) = true
  ∧ truthy (postAuthenticate (cleanConfig config)) = true
  ∧ authenticate (cleanConfig config)
    = from_option authenticate JUndefined config
  ∧ cleanConfig (Some (cleanConfig config)) = cleanConfig config
  ∧ (truthy (timeout c) = true → timeout (cleanConfig (Some c)) = timeout c)
  ∧ (truthy (postAuthenticate c) = true →
     postAuthenticate (cleanConfig (Some c)) = postAuthenticate c).
Proof.
  unfold cleanConfig, js_or. split; [|split; [|split; [|split; [|split]]]].
  - destruct config as [[t a p]|]; simpl; [|done]. by destruct (truthy t) eqn:Ht.
  - destruct config as [[t a p]|]; simpl; [|done]. by destruct (truthy p) eqn:Hp.
  - by destruct config.
  - destruct config as [[t a p]|]; simpl; [|done].
    destruct (truthy t) eqn:Ht, (truthy p) eqn:Hp; simpl; by rewrite ?Ht, ?Hp.
  - simpl. by intros ->.
  - simpl. by intros ->.
Qed.

Lemma cleanConfig_cleaned_witness :
  timeout (cleanConfig (Some patient_config)) = JStr "none"
  ∧ postAuthenticate
      (cleanConfig (Some (mkConfig (JNum 50) (JFun "authenticate") (JFun "load"))))
    = JFun "load".
Proof.
  split.
  - apply (proj1 (proj2 (proj2 (proj2 (proj2
             (cleanConfig_cleaned None patient_config)))))).
    reflexivity.
  - apply (proj2 (proj2 (proj2 (proj2 (proj2
             (cleanConfig_cleaned None
                (mkConfig (JNum 50) (JFun "authenticate") (JFun "load")))))))).
    reflexivity.
Defined.

(** ** The success fan-out *)

Lemma each_disconnect_found socketId message (l : list Namespace) st :
  each (λ nsp, disconnectConnections nsp socketId message) l st
  = (l, {| auth := auth st;
           acks := acks st ++ found_in socketId l;
           log := log st ++ ((λ s, Emit s "unauthorized" (PMessage message) true)
                             <$> found_in socketId l) |}).
Proof. apply each_disconnect. Qed.

(** The success loop in closed form. *)
Lemma each_auth socketId hook data (l : list Namespace) st :
  each (λ nsp, authConnections nsp socketId hook data) l st
  = (restore socketId <$> l,
     {| auth := foldl (λ a s, <[obj s := true]> a) (auth st) (found_in socketId l);
        acks := acks st;
        log := log st
               ++ List.flat_map
                    (λ s, [PostAuthenticate hook s data;
                           Emit s "authenticated" PTrue false])
                    (found_in socketId l) |}).
Proof.
  revert st. induction l as [|n l IH]; intros st; simpl.
  - destruct st; simpl. by rewrite app_nil_r.
  - unfold authConnections at 1, restore at 1, found_in. simpl.
    destruct (findWhere (same_root socketId) (sockets n)) as [s|]; simpl.
    + rewrite IH. simpl. unfold found_in. by rewrite <- !app_assoc.
    + by rewrite IH.
Qed.

Lemma foldl_auth_lookup (found : list Socket) (a : gmap nat bool) o :
  foldl (λ a s, <[obj s := true]> a) a found !! o
  = if decide (o ∈ obj <$> found) then Some true else a !! o.
Proof.
  revert a. induction found as [|s found IH]; intros a.
  - done.
  - cbn [foldl]. rewrite IH, fmap_cons.
    destruct (decide (o ∈ obj <$> found)) as [Hin|Hnin].
    + by rewrite decide_True by (apply elem_of_cons; by right).
    + destruct (decide (o = obj s)) as [->|Hne].
      * rewrite decide_True by (apply elem_of_cons; by left).
        by rewrite lookup_insert_eq.
      * rewrite decide_False by (by intros [?|?]%elem_of_cons).
        by rewrite lookup_insert_ne.
Qed.

Lemma found_in_spec socketId (l : list Namespace) s :
  s ∈ found_in socketId l →
  same_root socketId s = true ∧ ∃ nsp, nsp ∈ l ∧ s ∈ sockets nsp.
Proof.
  unfold found_in. rewrite list_elem_of_omap. intros (nsp & Hn & Hf).
  unfold findWhere in Hf. apply List.find_some in Hf as [Hin Hs].
  split; [done|]. exists nsp. split; [done|]. by apply list_elem_of_In.
Qed.

(** X3: with a truthy [success], every namespace that has a socket of the
    sender's root contributes, in namespace order, one call of the
    [postAuthenticate] hook followed by one [authenticated] event with
    payload [true] and no acknowledgement, both for its first such socket;
    exactly these sockets have their [auth] flag set to true and every
    other flag is left as it was; no acknowledgement is left pending, and
    timers and listeners are untouched. *)
Theorem success_fanout config socket data err success io :
  truthy success = true →
  let io' := authenticateSocket config socket data err success io in
  let found := found_in (id socket) (nsps io) in
  log (store io')
  = log (store io)
    ++ List.flat_map
         (λ s, [PostAuthenticate (postAuthenticate config) s data;
                Emit s "authenticated" PTrue false]) found
  ∧ (∀ o, auth (store io') !! o
          = if decide (o ∈ obj <$> found) then Some true
            else auth (store io) !! o)
  ∧ acks (store io') = acks (store io)
  ∧ timers io' = timers io
  ∧ listeners io' = listeners io.
Proof.
  intros Hs. unfold authenticateSocket. rewrite Hs, each_auth. simpl.
  split; [done|]. split; [|done]. intros o. apply foldl_auth_lookup.
Qed.

Lemma success_fanout_witness :
  log (store (authenticateSocket sample_config socket_a JNull JNull
                (JBool true) two_joined))
  = [PostAuthenticate (JFun "noop") socket_a JNull;
     Emit socket_a "authenticated" PTrue false;
     PostAuthenticate (JFun "noop") socket_b JNull;
     Emit socket_b "authenticated" PTrue false].
Proof.
  destruct (success_fanout sample_config socket_a JNull JNull (JBool true)
              two_joined eq_refl) as (H & _).
  exact H.
Defined.

(** X4: an outcome concerns one client only. Whatever the outcome, every
    effect added to the log is addressed to a socket that has the sender's
    root and sits in one of the namespaces, and so is every socket whose
    [auth] flag changed or that is newly waiting for an acknowledgement. *)
Theorem outcome_is_local config socket data err success io :
  let io' := authenticateSocket config socket data err success io in
  let concerned s :=
    rootSocketId (id s) = rootSocketId (id socket)
    ∧ ∃ nsp, nsp ∈ nsps io ∧ s ∈ sockets nsp in
  ∃ effects pending,
    log (store io') = log (store io) ++ effects
    ∧ acks (store io') = acks (store io) ++ pending
    ∧ (∀ e, e ∈ effects → concerned (addressee e))
    ∧ (∀ s, s ∈ pending → concerned s)
    ∧ ∀ o, auth (store io') !! o ≠ auth (store io) !! o →
           ∃ s, obj s = o ∧ concerned s.
Proof.
  simpl.
  assert (∀ s, s ∈ found_in (id socket) (nsps io) →
               rootSocketId (id s) = rootSocketId (id socket)
               ∧ ∃ nsp, nsp ∈ nsps io ∧ s ∈ sockets nsp) as Hfound.
  { intros s [Hr Hn]%found_in_spec. split; [|done].
    by apply String.eqb_eq in Hr. }
  unfold authenticateSocket. destruct (truthy success).
  - rewrite each_auth. simpl. eexists _, []. split; [done|].
    split; [by rewrite app_nil_r|]. split; [|split].
    + intros e [s [Hs He]]%list_elem_of_In%List.in_flat_map.
      apply list_elem_of_In in Hs.
      destruct He as [<-|[<-|[]]]; simpl; by apply Hfound.
    + intros s Hs. by apply elem_of_nil in Hs.
    + intros o. rewrite foldl_auth_lookup. case_decide as Ho; [|done].
      intros _. apply list_elem_of_fmap in Ho as (s & -> & Hs).
      exists s. split; [done|]. by apply Hfound.
  - rewrite each_disconnect_found. simpl. eexists _, _.
    split; [done|]. split; [done|]. split; [|split].
    + intros e (s & -> & Hs)%list_elem_of_fmap. simpl. by apply Hfound.
    + done.
    + done.
Qed.

(** ** Only authenticated sockets are broadcast to *)

Lemma grows_is_auth st st' s :
  grows st st' → is_auth st s = true → is_auth st' s = true.
Proof.
  intros [Hf _]. specialize (Hf (obj s)). unfold is_auth.
  destruct (auth st !! obj s) as [[]|]; simpl; [|done..].
  intros _. destruct Hf as [Hf|[[Hf Hf']|Hf]]; simplify_eq;
    [by rewrite <- Hf | by rewrite Hf].
Qed.

Lemma grows_admitted st st' nsp :
  grows st st' → admitted st nsp → admitted st' nsp.
Proof. intros Hg Ha k s Hk. eapply grows_is_auth; eauto. Qed.

Lemma authConnections_admitted nsp socketId hook data st :
  admitted st nsp →
  admitted (authConnections nsp socketId hook data st).2
           (authConnections nsp socketId hook data st).1.
Proof.
  intros Ha. unfold authConnections.
  destruct (findWhere _ _) as [s|]; simpl; [|done].
  intros k s0. simpl. destruct (decide (socketId = k)) as [->|Hne].
  - rewrite lookup_insert_eq. intros [= <-]. unfold is_auth. simpl.
    by rewrite lookup_insert_eq.
  - rewrite lookup_insert_ne by done. intros Hk%Ha. unfold is_auth in *. simpl.
    destruct (decide (obj s = obj s0)) as [->|Ho].
    + by rewrite lookup_insert_eq.
    + by rewrite lookup_insert_ne.
Qed.

Lemma each_admitted f (l : list Namespace) st :
  (∀ nsp st, grows st (f nsp st).2) →
  (∀ nsp st, admitted st nsp → admitted (f nsp st).2 (f nsp st).1) →
  Forall (admitted st) l →
  Forall (admitted (each f l st).2) (each f l st).1.
Proof.
  intros Hg Hf. revert st. induction l as [|n l IH]; intros st Hl; simpl.
  - constructor.
  - inversion Hl as [|? ? Hn Hl']; subst.
    pose proof (Hf n st Hn) as H1. pose proof (Hg n st) as G1.
    destruct (f n st) as [n' st'] eqn:Hfn. simpl in *.
    assert (Forall (admitted st') l) as Hl1.
    { eapply Forall_impl; [exact Hl'|]. intros x. by apply grows_admitted. }
    pose proof (IH st' Hl1) as H2.
    pose proof (each_preserves grows f grows_refl grows_trans Hg l st') as G2.
    destruct (each f l st') as [l'' st'']. simpl in *.
    constructor; [by eapply grows_admitted | done].
Qed.

Lemma handle_admitted config e io io' :
  Forall (admitted (store io)) (nsps io) →
  handle config e io = Some io' →
  Forall (admitted (store io')) (nsps io').
Proof.
  intros Hall. destruct e as [i s|s data err success|k|k]; simpl.
  - unfold on_connect. destruct (nsps io !! i) as [nsp|] eqn:Hi; simpl; [|done].
    intros [= <-]. unfold setupConnectionHandlers, forbidConnections. simpl.
    destruct (is_auth (store io) s) eqn:Hs.
    + simpl. apply Forall_insert; [done|].
      intros k s0. simpl. destruct (decide (id s = k)) as [->|Hne].
      * rewrite lookup_insert_eq. by intros [= <-].
      * rewrite lookup_insert_ne by done.
        rewrite Forall_lookup in Hall. by apply (Hall i nsp Hi).
    + assert (∀ nsp0, admitted (store io) nsp0 →
                      admitted (set_auth s false (store io)) nsp0) as Hkeep.
      { intros nsp0 Ha k s0 Hk%Ha. unfold is_auth in *. simpl.
        destruct (decide (obj s = obj s0)) as [Ho|Ho].
        - rewrite Ho in Hs. by rewrite Hs in Hk.
        - by rewrite lookup_insert_ne. }
      assert (Forall (admitted (set_auth s false (store io)))
                (<[i := set_connected (delete (id s) (connected (join s nsp)))
                          (join s nsp)]> (nsps io))) as H.
      { apply Forall_insert.
        - eapply Forall_impl; [exact Hall|]. exact Hkeep.
        - apply Hkeep. intros k s0. simpl.
          destruct (decide (id s = k)) as [->|Hne].
          + by rewrite lookup_delete_eq.
          + rewrite lookup_delete_ne, lookup_insert_ne by done.
            rewrite Forall_lookup in Hall. by apply (Hall i nsp Hi). }
      unfold setupTimeout. by destruct (is_none (timeout config)).
  - destruct (decide _); [|done]. intros [= <-]. unfold authenticateSocket.
    destruct (truthy success).
    + pose proof (each_admitted
        (λ nsp, authConnections nsp (id s) (postAuthenticate config) data)
        (nsps io) (store io)
        (λ nsp st, authConnections_grows nsp _ _ _ st)
        (λ nsp st, authConnections_admitted nsp _ _ _ st) Hall) as H.
      by destruct (each _ _ _).
    + rewrite each_disconnect. simpl.
      eapply Forall_impl; [exact Hall|]. intros nsp Ha k s0 Hk%Ha. done.
  - destruct (acks (store io) !! k); simpl; [|done]. intros [= <-]. simpl.
    eapply Forall_impl; [exact Hall|]. intros nsp Ha k0 s0 Hk%Ha. done.
  - destruct (timers io !! k) as [t|]; simpl; [|done]. intros [= <-]. simpl.
    eapply Forall_impl; [exact Hall|]. intros nsp Ha k0 s0 Hk%Ha.
    unfold timeout_callback. by destruct (is_auth (store io) t.2).
Qed.

(** X5: if every entry of every [connected] table is an authenticated
    socket, this is still so after any sequence of events: joins,
    authentication outcomes, acknowledgements and timeouts. It is so on a
    server that starts with empty tables. *)
Theorem connected_only_authenticated config es io io' :
  (∀ nsp k s, nsp ∈ nsps io → connected nsp !! k = Some s →
              is_auth (store io) s = true) →
  run config es io = Some io' →
  ∀ nsp k s, nsp ∈ nsps io' → connected nsp !! k = Some s →
             is_auth (store io') s = true.
Proof.
  intros H0 Hrun.
  assert (Forall (admitted (store io')) (nsps io')) as Hall.
  { assert (Forall (admitted (store io)) (nsps io)) as Hinit.
    { apply Forall_forall. intros nsp Hn k s. by apply H0. }
    clear H0. revert io Hinit Hrun.
    induction es as [|e es IH]; intros io Hinit; simpl.
    - by intros [= <-].
    - destruct (handle config e io) as [io1|] eqn:He; simpl; [|done].
      apply IH. by eapply handle_admitted. }
  intros nsp k s Hn. rewrite Forall_forall in Hall. by apply Hall.
Qed.

Lemma connected_only_authenticated_witness :
  is_auth (store (authenticateSocket sample_config socket_a JNull JNull
                    (JBool true) two_joined)) socket_b = true.
Proof.
  apply (connected_only_authenticated sample_config
           [Connect 0 socket_a; Connect 1 socket_b;
            Authentication socket_a JNull JNull (JBool true)]
           (fresh ["/a"; "/b"])
           (authenticateSocket sample_config socket_a JNull JNull
              (JBool true) two_joined)
           ltac:(intros nsp k s Hn Hk; vm_compute in Hn;
                 repeat (apply elem_of_cons in Hn as [->|Hn]; [done|]);
                 by apply elem_of_nil in Hn)
           eq_refl
           (restore "/a#XYZ" (mkNamespace "/b" [socket_b] ∅)) "/a#XYZ" socket_b).
  - vm_compute. apply list_elem_of_In. right. left. reflexivity.
  - reflexivity.
Defined.

(** ** Joining *)

Lemma same_root_refl s : same_root (id s) s = true.
Proof. unfold same_root. apply String.eqb_refl. Qed.

Lemma findWhere_last {A} (p : A → bool) (l : list A) x :
  (∀ y, y ∈ l → p y = false) → p x = true → findWhere p (l ++ [x]) = Some x.
Proof.
  unfold findWhere. induction l as [|a l IH]; intros Hl Hx; simpl.
  - by rewrite Hx.
  - rewrite (Hl a) by apply list_elem_of_here. apply IH; [|done].
    intros y Hy. apply Hl. by apply list_elem_of_further.
Qed.

(** X6: removal and re-admission undo each other in the sender's own
    namespace. When a socket that is not authenticated joins a namespace
    holding no other socket of its root, and later authenticates over that
    very socket, the namespace is exactly what socket.io had made of it at
    the join: the socket is back in [connected] under its own id. *)
Theorem readmitted_under_own_id nsp socket st st' hook data :
  is_auth st socket = false →
  (∀ s, s ∈ sockets nsp → same_root (id socket) s = false) →
  (authConnections (forbidConnections (join socket nsp) socket st)
                   (id socket) hook data st').1
  = join socket nsp.
Proof.
  intros Ha Hfree. unfold forbidConnections. rewrite Ha.
  unfold authConnections. simpl.
  rewrite findWhere_last by (done || apply same_root_refl). simpl.
  unfold set_connected, join. simpl. f_equal.
  by rewrite insert_delete_eq, insert_insert_eq.
Qed.

Lemma readmitted_under_own_id_witness :
  (authConnections
     (forbidConnections (join socket_a (mkNamespace "/a" [socket_c] ∅))
                        socket_a (mkStore ∅ [] []))
     (id socket_a) (JFun "noop") JNull (mkStore ∅ [] [])).1
  = join socket_a (mkNamespace "/a" [socket_c] ∅).
Proof.
  apply (readmitted_under_own_id (mkNamespace "/a" [socket_c] ∅) socket_a
           (mkStore ∅ [] []) (mkStore ∅ [] []) (JFun "noop") JNull).
  - reflexivity.
  - intros s Hs. apply list_elem_of_singleton in Hs. subst s. reflexivity.
Defined.

(** X7: a socket whose [auth] flag is already true when it joins goes
    through untouched: it stays in [connected], its flag is not reset, it
    gets no [authentication] listener and no timer. *)
Theorem authenticated_join_untouched config i socket io nsp :
  is_auth (store io) socket = true →
  nsps io !! i = Some nsp →
  on_connect config i socket io
  = Some {| nsps := <[i := join socket nsp]> (nsps io);
            store := store io;
            listeners := listeners io;
            timers := timers io |}.
Proof.
  intros Ha Hi. unfold on_connect. rewrite Hi. simpl.
  unfold setupConnectionHandlers, forbidConnections. simpl. by rewrite Ha.
Qed.

Lemma authenticated_join_untouched_witness :
  let io := authenticateSocket sample_config socket_a JNull JNull
              (JBool true) two_joined in
  timers (default io (on_connect sample_config 0 socket_a io)) = timers io
  ∧ listeners (default io (on_connect sample_config 0 socket_a io)) = listeners io.
Proof.
  simpl.
  rewrite (authenticated_join_untouched sample_config 0 socket_a
             (authenticateSocket sample_config socket_a JNull JNull
                (JBool true) two_joined)
             (restore "/a#XYZ" (mkNamespace "/a" [socket_a] ∅))
             eq_refl eq_refl).
  split; reflexivity.
Defined.

Lemma delete_last {A} (l : list A) x : delete (length l) (l ++ [x]) = l.
Proof. induction l as [|a l IH]; simpl; [done | by rewrite IH]. Qed.

(** X8: a socket that is not authenticated when it joins, under a
    [timeout] other than ['none'], gets its flag set to [false], one
    [authentication] listener and one timer carrying the configured delay.
    If that timer fires before anything else happens, the socket is
    disconnected with reason ["unauthorized"], nothing is emitted to it,
    and the timer is gone. *)
Theorem unauthenticated_join_times_out config i socket io io1 :
  is_auth (store io) socket = false →
  is_none (timeout config) = false →
  on_connect config i socket io = Some io1 →
  auth (store io1) !! obj socket = Some false
  ∧ listeners io1 = listeners io ++ [socket]
  ∧ timers io1 = timers io ++ [(timeout config, socket)]
  ∧ log (store io1) = log (store io)
  ∧ ∃ io2,
      handle config (TimerFires (length (timers io))) io1 = Some io2
      ∧ log (store io2)
        = log (store io) ++ [Disconnect socket (Some "unauthorized")]
      ∧ timers io2 = timers io
      ∧ nsps io2 = nsps io1.
Proof.
  intros Ha Hn. unfold on_connect.
  destruct (nsps io !! i) as [nsp|]; simpl; [|done]. intros [= <-].
  unfold setupConnectionHandlers, setupTimeout. simpl. rewrite Ha, Hn. simpl.
  split; [apply lookup_insert_eq|]. do 3 (split; [done|]).
  rewrite list_lookup_middle by done. simpl. eexists. split; [done|]. simpl.
  split; [|split; [apply delete_last | done]].
  unfold timeout_callback, is_auth. simpl. by rewrite lookup_insert_eq.
Qed.

Lemma unauthenticated_join_times_out_witness :
  ∃ io1, on_connect sample_config 0 socket_a (fresh ["/a"; "/b"]) = Some io1
         ∧ timers io1 = [(JNum 1000, socket_a)].
Proof.
  eexists. split; [reflexivity|].
  destruct (unauthenticated_join_times_out sample_config 0 socket_a
              (fresh ["/a"; "/b"]) _ eq_refl eq_refl eq_refl)
    as (_ & _ & H & _).
  exact H.
Defined.

(** ** Acknowledgements *)

Lemma acknowledge_all config n :
  ∀ io, length (acks (store io)) = n →
  ∃ io', run config (replicate n (Acknowledge 0)) io = Some io'
         ∧ acks (store io') = []
         ∧ log (store io')
           = log (store io) ++ ((λ s, Disconnect s None) <$> acks (store io))
         ∧ auth (store io') = auth (store io).
Proof.
  induction n as [|n IH]; intros io Hlen.
  - apply nil_length_inv in Hlen. exists io. rewrite Hlen. simpl.
    by rewrite app_nil_r.
  - destruct (acks (store io)) as [|s rest] eqn:Hacks; [done|].
    simpl in Hlen. injection Hlen as Hlen.
    simpl. rewrite Hacks. simpl.
    edestruct (IH (with_store (ack_callback s
                 {| auth := auth (store io); acks := rest; log := log (store io) |}) io))
      as (io' & Hrun & H1 & H2 & H3); [done|].
    exists io'. split; [done|]. split; [done|]. simpl in *.
    split; [by rewrite H2, <- app_assoc | done].
Qed.

(** X9: after a failed authentication on a server with no acknowledgement
    pending, acknowledging every [unauthorized] event disconnects exactly
    the sockets the events were sent to, each once, in the order of the
    events and without a reason; no acknowledgement is left pending and no
    [auth] flag has changed by then. *)
Theorem rejected_then_acknowledged config socket data err success io :
  truthy success = false →
  acks (store io) = [] →
  let io' := authenticateSocket config socket data err success io in
  let found := found_in (id socket) (nsps io) in
  ∃ io'',
    run config (replicate (length found) (Acknowledge 0)) io' = Some io''
    ∧ log (store io'')
      = log (store io)
        ++ ((λ s, Emit s "unauthorized" (PMessage (failure_message err)) true)
            <$> found)
        ++ ((λ s, Disconnect s None) <$> found)
    ∧ acks (store io'') = []
    ∧ auth (store io'') = auth (store io).
Proof.
  intros Hs Hacks. simpl.
  destruct (acknowledge_all config (length (found_in (id socket) (nsps io)))
              (authenticateSocket config socket data err success io))
    as (io'' & Hrun & H1 & H2 & H3).
  { unfold authenticateSocket. rewrite Hs, each_disconnect_found. simpl.
    by rewrite Hacks. }
  exists io''. split; [done|]. revert H2 H3.
  unfold authenticateSocket. rewrite Hs, each_disconnect_found. simpl.
  rewrite Hacks. simpl. intros -> ->. by rewrite <- app_assoc.
Qed.

Lemma rejected_then_acknowledged_witness :
  ∃ io'',
    run sample_config [Acknowledge 0; Acknowledge 0] turned_down = Some io''
    ∧ log (store io'')
      = [Emit socket_a "unauthorized" (PMessage (JStr "Authentication failure")) true;
         Emit socket_b "unauthorized" (PMessage (JStr "Authentication failure")) true;
         Disconnect socket_a None; Disconnect socket_b None].
Proof.
  destruct (rejected_then_acknowledged sample_config socket_a JNull JNull
              (JBool false) two_joined eq_refl eq_refl)
    as (io'' & Hrun & Hlog & _).
  exists io''. split; [exact Hrun | exact Hlog].
Defined.

(** ** Listeners are never removed *)

Lemma handle_listeners config e io io' s :
  handle config e io = Some io' → s ∈ listeners io → s ∈ listeners io'.
Proof.
  destruct e as [i s0|s0 data err success|k|k]; simpl.
  - unfold on_connect. destruct (nsps io !! i); simpl; [|done]. intros [= <-].
    unfold setupConnectionHandlers, setupTimeout. simpl.
    destruct (is_auth (store io) s0); simpl; [done|].
    destruct (is_none (timeout config)); simpl; intros Hs;
      apply elem_of_app; by left.
  - destruct (decide _); [|done]. intros [= <-]. unfold authenticateSocket.
    by destruct (if truthy success then _ else _).
  - destruct (acks (store io) !! k); simpl; [|done]. by intros [= <-].
  - destruct (timers io !! k); simpl; [|done]. by intros [= <-].
Qed.

(** X10: the module does not take the [authentication] listener away and
    does not guard against a repeated message. Take a socket that carries
    the listener and has not been disconnected. After any sequence of
    joins and authentication outcomes, failed or successful, in which no
    timer fired and nothing was acknowledged, the socket has still not
    been disconnected, and a further [authentication] message on it is
    handled and fans its outcome out again. *)
Theorem authentication_can_repeat config es io io' socket data err success :
  socket ∈ listeners io →
  (∀ r, Disconnect socket r ∉ log (store io)) →
  Forall (λ e, closing e = false) es →
  run config es io = Some io' →
  (∀ r, Disconnect socket r ∉ log (store io'))
  ∧ handle config (Authentication socket data err success) io'
    = Some (authenticateSocket config socket data err success io').
Proof.
  intros Hin Hopen Hes Hrun. split.
  - intros r Hr. apply (Hopen r).
    eapply closes_nothing_elem; [|exact Hr]. by eapply run_closes_nothing.
  - assert (socket ∈ listeners io') as Hin'.
    { clear Hopen Hes. revert io Hin Hrun.
      induction es as [|e es IH]; intros io Hin; simpl.
      - by intros [= <-].
      - destruct (handle config e io) as [io1|] eqn:He; simpl; [|done].
        apply IH. by eapply handle_listeners. }
    simpl. by rewrite decide_True.
Qed.

Lemma authentication_can_repeat_witness :
  handle sample_config (Authentication socket_a JNull JNull (JBool true)) turned_down
  = Some (authenticateSocket sample_config socket_a JNull JNull (JBool true) turned_down).
Proof.
  apply (authentication_can_repeat sample_config
           [Authentication socket_a JNull JNull (JBool false)]
           two_joined turned_down socket_a JNull JNull (JBool true)).
  - apply list_elem_of_here.
  - intros r Hr. by apply elem_of_nil in Hr.
  - repeat constructor.
  - reflexivity.
Defined.

(** ** Repeating a success *)

Lemma restore_sockets socketId nsp :
  sockets (restore socketId nsp) = sockets nsp
  ∧ name (restore socketId nsp) = name nsp.
Proof. unfold restore. by destruct (findWhere _ _). Qed.





(** ** The namespaces and their socket lists *)

(** X12: an authentication outcome, success or failure, never adds,
    removes or renames a namespace and never changes a namespace's socket
    list, which is why an excluded socket can still be found; and a join
    leaves every name as it was and only appends the joining socket to the
    list of the namespace joined. *)
Theorem namespaces_kept config socket data err success io :
  name <$> nsps (authenticateSocket config socket data err success io)
  = name <$> nsps io
  ∧ sockets <$> nsps (authenticateSocket config socket data err success io)
    = sockets <$> nsps io
  ∧ ∀ i nsp io1,
      nsps io !! i = Some nsp →
      on_connect config i socket io = Some io1 →
      name <$> nsps io1 = name <$> nsps io
      ∧ sockets <$> nsps io1
        = <[i := sockets nsp ++ [socket]]> (sockets <$> nsps io).
Proof.
  split; [|split].
  - unfold authenticateSocket. destruct (truthy success).
    + rewrite each_auth. simpl. rewrite <- list_fmap_compose.
      apply list_fmap_ext. intros k n _. apply restore_sockets.
    + by rewrite each_disconnect.
  - unfold authenticateSocket. destruct (truthy success).
    + rewrite each_auth. simpl. rewrite <- list_fmap_compose.
      apply list_fmap_ext. intros k n _. apply restore_sockets.
    + by rewrite each_disconnect.
  - intros i nsp io1 Hi. unfold on_connect. rewrite Hi. simpl.
    intros [= <-].
    assert (∀ x, nsps (setupConnectionHandlers config socket x) = nsps x) as Hsame.
    { intros x. unfold setupConnectionHandlers, setupTimeout.
      destruct (is_auth _ _); [done|]. by destruct (is_none _). }
    rewrite Hsame. simpl. rewrite !list_fmap_insert.
    assert (name (forbidConnections (join socket nsp) socket (store io)) = name nsp
            ∧ sockets (forbidConnections (join socket nsp) socket (store io))
              = sockets nsp ++ [socket]) as [-> ->].
    { unfold forbidConnections. by destruct (is_auth _ _). }
    split; [|done]. apply list_insert_id. by rewrite list_lookup_fmap, Hi.
Qed.

Lemma namespaces_kept_witness :
  sockets <$> nsps two_joined = [[socket_a]; [socket_b]]
  ∧ sockets <$> nsps turned_down = [[socket_a]; [socket_b]].
Proof.
  split; [reflexivity|]. unfold turned_down.
  rewrite (proj1 (proj2 (namespaces_kept sample_config socket_a JNull JNull
                           (JBool false) two_joined))).
  reflexivity.
Defined.

(** ** Timers and authenticated sockets *)

Lemma handle_spares config e io io' s r :
  is_auth (store io) s = true →
  handle config e io = Some io' →
  Disconnect s (Some r) ∈ log (store io') →
  Disconnect s (Some r) ∈ log (store io).
Proof.
  intros Ha. destruct e as [j s0|s0 data err success|k|k]; simpl.
  - unfold on_connect. destruct (nsps io !! j) as [n|]; simpl; [|done].
    intros [= <-]. unfold setupConnectionHandlers, setupTimeout. simpl.
    destruct (is_auth _ s0); simpl; [done|]. by destruct (is_none _).
  - destruct (decide _); [|done]. intros [= <-]. unfold authenticateSocket.
    destruct (truthy success).
    + rewrite each_auth. simpl. intros [?|Hin]%elem_of_app; [done|].
      apply list_elem_of_In, List.in_flat_map in Hin as (x & _ & Hx).
      by destruct Hx as [?|[?|[]]].
    + rewrite each_disconnect. simpl. intros [?|Hin]%elem_of_app; [done|].
      by apply list_elem_of_fmap in Hin as (x & ? & _).
  - destruct (acks (store io) !! k); simpl; [|done]. intros [= <-]. simpl.
    intros [?|Hin]%elem_of_app; [done|].
    by apply list_elem_of_singleton in Hin.
  - destruct (timers io !! k) as [t|]; simpl; [|done]. intros [= <-]. simpl.
    unfold timeout_callback. destruct (is_auth (store io) t.2) eqn:Ht; [done|].
    simpl. intros [?|Hin]%elem_of_app; [done|].
    apply list_elem_of_singleton in Hin. simplify_eq. congruence.
Qed.

(** X13: once a socket's [auth] flag is true, no timer ever disconnects
    it: over any later sequence of events no disconnection of that socket
    with a reason is added to the log. *)
Theorem authenticated_never_timed_out config es io io' socket reason :
  is_auth (store io) socket = true →
  run config es io = Some io' →
  Disconnect socket (Some reason) ∉ log (store io) →
  Disconnect socket (Some reason) ∉ log (store io').
Proof.
  intros Ha Hrun Hnot Hin. apply Hnot. clear Hnot.
  revert io Ha Hrun. induction es as [|e es IH]; intros io Ha; simpl.
  - by intros [= <-].
  - destruct (handle config e io) as [io1|] eqn:He; simpl; [|done].
    intros Hrun. eapply handle_spares; [done..|].
    eapply IH; [|done].
    eapply grows_is_auth; [by eapply handle_grows | done].
Qed.

Lemma authenticated_never_timed_out_witness :
  ∃ io',
    run sample_config
        [Authentication socket_a JNull JNull (JBool true); TimerFires 0; TimerFires 0]
        two_joined = Some io'
    ∧ timers io' = []
    ∧ Disconnect socket_a (Some "unauthorized") ∉ log (store io').
Proof.
  eexists. split; [reflexivity|]. split; [reflexivity|].
  apply (authenticated_never_timed_out sample_config
           [TimerFires 0; TimerFires 0]
           (authenticateSocket sample_config socket_a JNull JNull (JBool true)
              two_joined)
           _ socket_a "unauthorized" eq_refl eq_refl).
  vm_compute. intros H.
  repeat (apply elem_of_cons in H as [H|H]; [discriminate H|]).
  by apply elem_of_nil in H.
Defined.

(** ** The root is a suffix *)

Lemma occurs_split c s :
  JsString.occurs c s = true →
  ∃ pre post, s = pre +:+ String c post ∧ JsString.occurs c pre = false.
Proof.
  induction s as [|a s IH]; simpl; [done|].
  destruct (Ascii.eqb a c) eqn:Ha; simpl.
  - intros _. apply Ascii.eqb_eq in Ha as ->. by exists "", s.
  - intros (pre & post & -> & Hpre)%IH. exists (String a pre), post.
    split; [done|]. simpl. by rewrite Ha.
Qed.

(** X14: [rootSocketId] only ever cuts a prefix off: its argument is some
    prefix followed by the result. In particular the root of the empty id
    is empty, and an id that ends in its first [#] has the empty root. *)
Theorem rootSocketId_suffix (s : string) :
  (∃ pre, s = pre +:+ rootSocketId s)
  ∧ rootSocketId "" = ""
  ∧ ∀ pre, JsString.occurs hash pre = false →
           rootSocketId (pre +:+ String hash "") = "".
Proof.
  split; [|split; [done|]].
  - destruct (JsString.occurs hash s) eqn:Hs.
    + apply occurs_split in Hs as (pre & post & -> & Hpre).
      rewrite rootSocketId_qualified by done.
      exists (pre +:+ String hash ""). clear Hpre.
      induction pre as [|a pre IH]; [reflexivity|].
      change (String a (pre +:+ String hash post)
              = String a ((pre +:+ String hash "") +:+ post)).
      by f_equal.
    + exists "". by rewrite rootSocketId_bare.
  - intros pre Hpre. by apply rootSocketId_qualified.
Qed.

Lemma rootSocketId_suffix_witness :
  rootSocketId ("/a" +:+ String hash "") = "".
Proof.
  apply (proj2 (proj2 (rootSocketId_suffix "")) "/a"). reflexivity.
Defined.

(** ** One socket per namespace *)

Lemma findWhere_first {A} (p : A → bool) (l1 l2 : list A) x :
  (∀ y, y ∈ l1 → p y = false) → p x = true →
  findWhere p (l1 ++ x :: l2) = Some x.
Proof.
  unfold findWhere. induction l1 as [|a l1 IH]; intros Hl Hx; simpl.
  - by rewrite Hx.
  - rewrite (Hl a) by apply list_elem_of_here. apply IH; [|done].
    intros y Hy. apply Hl. by apply list_elem_of_further.
Qed.

(** X15: in a namespace that holds several sockets of the sender's root,
    only the one that arrived first is served, whatever follows it in the
    list: on failure it alone is sent [unauthorized] and awaits the
    acknowledgement; on success it alone gets its flag set, the hook call,
    the [authenticated] event and the [connected] entry. *)
Theorem first_of_root_only nsp socketId l1 s l2 hook data message st :
  sockets nsp = l1 ++ s :: l2 →
  (∀ x, x ∈ l1 → same_root socketId x = false) →
  same_root socketId s = true →
  disconnectConnections nsp socketId message st
  = (nsp, await_ack s (record (Emit s "unauthorized" (PMessage message) true) st))
  ∧ authConnections nsp socketId hook data st
    = (set_connected (<[socketId := s]> (connected nsp)) nsp,
       record (Emit s "authenticated" PTrue false)
         (record (PostAuthenticate hook s data) (set_auth s true st))).
Proof.
  intros Hl H1 Hs. unfold disconnectConnections, authConnections.
  by rewrite Hl, findWhere_first.
Qed.

Lemma first_of_root_only_witness :
  log (disconnectConnections crowded "/b#XYZ" (JStr "no") (mkStore ∅ [] [])).2
  = [Emit socket_a "unauthorized" (PMessage (JStr "no")) true].
Proof.
  destruct (first_of_root_only crowded "/b#XYZ" [socket_c] socket_a
              [mkSocket 4 "/a#XYZ"] JNull JNull (JStr "no") (mkStore ∅ [] [])
              eq_refl) as [H _].
  - intros x Hx. apply list_elem_of_singleton in Hx. subst x. reflexivity.
  - reflexivity.
  - rewrite H. reflexivity.
Defined.
